(** * Access-token stores of [auth/tokenstore.go]

    The package [auth] declares the interface [TokenStore]
    (Store, Lookup, Revoke, List) and two implementations:
    [inMemoryTokenStore], a map of maps behind a [sync.RWMutex], and
    [vaultTokenStore], an adapter over the logical client of a Vault
    server.  Both are embedded here and the properties stated for them
    are proved on the embedding. *)

From stdpp Require Import gmap strings list fin_maps.

Open Scope string_scope.
Open Scope list_scope.
Open Scope nat_scope.

(** ** Go values shared by both implementations *)

(** Go's [error] interface: [None] is the [nil] error, [Some msg] an
    error value carrying its message. *)
Definition error : Type := option string.

(** [v, _ := m[k]]: indexing a [map[string]string] gives the zero value
    of [string] for a key that is absent. *)
Definition map_index (m : gmap string string) (k : string) : string :=
  default EmptyString (m !! k).

(** [tokens[i] = k] for each [k] that [range] produces, [i] counting up:
    the body of the loops that copy keys into a slice made beforehand. *)
Fixpoint range_fill (ks : list string) (tokens : list string) (i : nat)
  : list string :=
  match ks with
  | [] => tokens
  | k :: ks' => range_fill ks' (<[i:=k]> tokens) (S i)
  end.

(** The keys of a map, in the order stdpp enumerates them. *)
Definition keys (m : gmap string string) : list string := (map_to_list m).*1.

(** [for k := range m] visits every key of [m] once, in an order the
    language leaves unspecified: [ks] is a possible order of visit. *)
Definition range_order (m : gmap string string) (ks : list string) : Prop :=
  ks ≡ₚ keys m.

(** ** The in-memory implementation *)

Module InMemory.

(** A Go map value is a reference to a map object.  The inner maps of
    [map[string]map[string]string] are therefore kept in a heap [maps],
    addressed by [ref]; [store] holds references, and [next] is the
    next address [make] hands out. *)
Definition ref : Type := nat.

(** The struct [inMemoryTokenStore].  The embedded [sync.RWMutex] is held
    by every method from entry to return, so each method runs alone on
    the struct and is embedded as a function of its state. *)
Record inMemoryTokenStore : Type := mkStore {
  store : gmap string ref;
  maps : gmap ref (gmap string string);
  next : ref
}.

(** [NewInMemoryTokenStore]: [store: make(map[string]map[string]string)]. *)
Definition NewInMemoryTokenStore : inMemoryTokenStore :=
  {| store := ∅; maps := ∅; next := 0 |}.

(** The map object a reference points to. *)
Definition deref (s : inMemoryTokenStore) (l : ref) : gmap string string :=
  maps s !!! l.

(** [make(map[string]string)]: a new empty map object. *)
Definition make_map (s : inMemoryTokenStore) : ref * inMemoryTokenStore :=
  (next s,
   {| store := store s; maps := <[next s := ∅]> (maps s); next := S (next s) |}).

(** [userTokens[k] = v] on the object behind [userTokens]. *)
Definition map_assign (userTokens : ref) (k v : string)
  (s : inMemoryTokenStore) : inMemoryTokenStore :=
  {| store := store s;
     maps := <[userTokens := <[k:=v]> (deref s userTokens)]> (maps s);
     next := next s |}.

(** [delete(userTokens, k)] on the object behind [userTokens]. *)
Definition map_delete (userTokens : ref) (k : string)
  (s : inMemoryTokenStore) : inMemoryTokenStore :=
  {| store := store s;
     maps := <[userTokens := delete k (deref s userTokens)]> (maps s);
     next := next s |}.

(** [tokenStore.store[userId] = userTokens]. *)
Definition store_assign (userId : string) (userTokens : ref)
  (s : inMemoryTokenStore) : inMemoryTokenStore :=
  {| store := <[userId := userTokens]> (store s);
     maps := maps s;
     next := next s |}.

(** [func (tokenStore *inMemoryTokenStore) Store(userId, token string) error] *)
Definition Store (userId token : string) (s : inMemoryTokenStore)
  : error * inMemoryTokenStore :=
  let '(userTokens, s1) :=
    match store s !! userId with
    | Some userTokens => (userTokens, s)
    | None => make_map s
    end in
  let s2 := map_assign userTokens token token s1 in
  let s3 := store_assign userId userTokens s2 in
  (None, s3).

(** [func (tokenStore *inMemoryTokenStore) Lookup(userId, token string) (string, error)] *)
Definition Lookup (userId token : string) (s : inMemoryTokenStore)
  : string * error :=
  match store s !! userId with
  | Some userTokens => (map_index (deref s userTokens) token, None)
  | None => (EmptyString, None)
  end.

(** [func (tokenStore *inMemoryTokenStore) Revoke(userId, token string) error] *)
Definition Revoke (userId token : string) (s : inMemoryTokenStore)
  : error * inMemoryTokenStore :=
  match store s !! userId with
  | Some userTokens => (None, map_delete userTokens token s)
  | None => (None, s)
  end.

(** The loop of [List] when [range] visits the keys in the order [ks]:
    [tokens := make([]string, len(userTokens))], then one slot per key. *)
Definition collect_keys (userTokens : gmap string string) (ks : list string)
  : list string :=
  range_fill ks (replicate (size userTokens) EmptyString) 0.

(** [func (tokenStore *inMemoryTokenStore) List(userId string) ([]string, error)],
    run with the enumeration order of [keys].  The [nil] slice of the
    last line is the empty list: it has length 0 and no element. *)
Definition List (userId : string) (s : inMemoryTokenStore)
  : list string * error :=
  match store s !! userId with
  | Some userTokens =>
      (collect_keys (deref s userTokens) (keys (deref s userTokens)), None)
  | None => ([], None)
  end.

(** Every result [List] can give, over all orders [range] may choose. *)
Inductive List_returns (userId : string) (s : inMemoryTokenStore)
  : list string * error → Prop :=
  | List_known userTokens ks :
      store s !! userId = Some userTokens →
      range_order (deref s userTokens) ks →
      List_returns userId s (collect_keys (deref s userTokens) ks, None)
  | List_unknown :
      store s !! userId = None →
      List_returns userId s ([], None).

(** [t] is stored under [u]: it is a key of the map [store[u]]. *)
Definition stored (u t : string) (s : inMemoryTokenStore) : Prop :=
  ∃ userTokens, store s !! u = Some userTokens
                ∧ is_Some (deref s userTokens !! t).

(** The tokens of a user as the methods see them: the map behind
    [store[u]], or no token at all for a user [store] does not know. *)
Definition tokens_of (u : string) (s : inMemoryTokenStore) : gmap string string :=
  match store s !! u with
  | Some userTokens => deref s userTokens
  | None => ∅
  end.

(** Calls on the interface, and the state a call leaves behind. *)
Inductive call : Type :=
  | CallStore (u t : string)
  | CallLookup (u t : string)
  | CallRevoke (u t : string)
  | CallList (u : string).

#[global] Instance call_eq_dec : EqDecision call.
Proof. solve_decision. Defined.

Definition step (s : inMemoryTokenStore) (c : call) : inMemoryTokenStore :=
  match c with
  | CallStore u t => (Store u t s).2
  | CallRevoke u t => (Revoke u t s).2
  | CallLookup _ _ | CallList _ => s
  end.

Definition run (cs : list call) (s : inMemoryTokenStore) : inMemoryTokenStore :=
  foldl step s cs.

(** The state of the scenario: alice holds two tokens, bob one. *)
Definition scenario : inMemoryTokenStore :=
  run [CallStore "alice" "tok-1"; CallStore "alice" "tok-2";
       CallStore "bob" "x"] NewInMemoryTokenStore.

(** The states a store built by [NewInMemoryTokenStore] can be in. *)
Inductive reachable : inMemoryTokenStore → Prop :=
  | reachable_new : reachable NewInMemoryTokenStore
  | reachable_step s c : reachable s → reachable (step s c).

(** What holds of every reachable state: references in [store] point to
    allocated objects, two users never share an object, and every object
    maps a token to itself. *)
Record wf (s : inMemoryTokenStore) : Prop := mkWf {
  wf_alloc : ∀ u l, store s !! u = Some l → l < next s ∧ is_Some (maps s !! l);
  wf_inj : ∀ u u' l, store s !! u = Some l → store s !! u' = Some l → u = u';
  wf_value : ∀ l m k v, maps s !! l = Some m → m !! k = Some v → v = k
}.

(** The store with the addresses of the map objects forgotten: each
    known user with the map behind its reference. *)
Definition contents (s : inMemoryTokenStore) : gmap string (gmap string string) :=
  deref s <$> store s.

(** [Store] and [Revoke] read as updates of a map of maps held by value:
    [Store] puts [token] under itself in the user's map, made empty when
    the user is new; [Revoke] deletes [token] from the map of a user that
    has one. *)
Definition Store_by_value (userId token : string)
  (m : gmap string (gmap string string)) : gmap string (gmap string string) :=
  <[userId := <[token := token]> (default ∅ (m !! userId))]> m.

Definition Revoke_by_value (userId token : string)
  (m : gmap string (gmap string string)) : gmap string (gmap string string) :=
  match m !! userId with
  | Some userTokens => <[userId := delete token userTokens]> m
  | None => m
  end.

End InMemory.

(** ** The Vault implementation *)

Module Vault.

(** The dynamic values an [interface{}] of a decoded response can hold:
    the [nil] interface, a [string], a [[]interface{}], or a value of
    some other dynamic type (a number, a boolean, a nested map). *)
#[warnings="-register-all"]
Inductive value : Type :=
  | VNil
  | VString (s : string)
  | VSlice (vs : list value)
  | VOther (type_name : string).

(** [vaultapi.Secret]; the store reads its field [Data] only.  A [nil]
    map and an empty map index alike, both are [∅]. *)
Record Secret : Type := mkSecret { Data : gmap string value }.

(** What every method of [*vaultapi.Logical] returns, a [*Secret] and an
    [error]; the pointer is [None] when it is [nil]. *)
Definition response : Type := option Secret * error.

(** The four methods of [*vaultapi.Logical] the store calls. *)
Inductive request : Type :=
  | logical_Write (path : string) (data : gmap string value)
  | logical_Read (path : string)
  | logical_Delete (path : string)
  | logical_List (path : string).

(** The run-time panics the store's own code can raise. *)
Inductive panic : Type :=
  | NilDereference
  | InterfaceConversion.

(** How a call of a method ends. *)
Inductive outcome (A : Type) : Type :=
  | Returns (a : A)
  | Panics (p : panic).
Arguments Returns {A} a.
Arguments Panics {A} p.

(** Code of the store: it returns, panics, or calls the client and goes
    on with the response. *)
Inductive vaultM (A : Type) : Type :=
  | Ret (a : A)
  | Panic (p : panic)
  | Do (r : request) (k : response → vaultM A).
Arguments Ret {A} a.
Arguments Panic {A} p.
Arguments Do {A} r k.

Fixpoint bind {A B : Type} (f : A → vaultM B) (m : vaultM A) : vaultM B :=
  match m with
  | Ret a => f a
  | Panic p => Panic p
  | Do r k => Do r (λ x, bind f (k x))
  end.

#[global] Instance vaultM_ret : MRet vaultM := @Ret.
#[global] Instance vaultM_bind : MBind vaultM := @bind.

Definition call (r : request) : vaultM response := Do r Ret.

(** [secret.Data] through the pointer [secret]. *)
Definition secret_Data (secret : option Secret) : vaultM (gmap string value) :=
  match secret with
  | Some sec => Ret (Data sec)
  | None => Panic NilDereference
  end.

(** [data[k]] on a [map[string]interface{}]: the [nil] interface for an
    absent key. *)
Definition data_index (data : gmap string value) (k : string) : value :=
  default VNil (data !! k).

(** [v.(string)], the assertion without the [ok] result. *)
Definition assert_string (v : value) : vaultM string :=
  match v with
  | VString s => Ret s
  | VNil | VSlice _ | VOther _ => Panic InterfaceConversion
  end.

(** [v.([]interface{})], the assertion without the [ok] result. *)
Definition assert_slice (v : value) : vaultM (list value) :=
  match v with
  | VSlice vs => Ret vs
  | VNil | VString _ | VOther _ => Panic InterfaceConversion
  end.

(** [fmt.Sprintf] with a format of [%s] verbs and string arguments
    splices the arguments into the format. *)
Definition tokenPath (userId token : string) : string :=
  "secret/accesstokens/" +:+ userId +:+ "/" +:+ token.

(** The path [List] formats in place:
    [fmt.Sprintf("secret/accesstokens/%s", userId)]. *)
Definition listPath (userId : string) : string :=
  "secret/accesstokens/" +:+ userId.

(** [func (tokenStore vaultTokenStore) Store(userId, token string) error] *)
Definition Store (userId token : string) : vaultM error :=
  let data : gmap string value := {[ "token" := VString token ]} in
  '(_, err) ← call (logical_Write (tokenPath userId token) data);
  Ret err.

(** [func (tokenStore vaultTokenStore) Lookup(userId, token string) (string, error)] *)
Definition Lookup (userId token : string) : vaultM (string * error) :=
  '(secret, err) ← call (logical_Read (tokenPath userId token));
  match err with
  | Some _ => Ret (EmptyString, err)
  | None =>
      data ← secret_Data secret;
      tok ← assert_string (data_index data "token");
      Ret (tok, None)
  end.

(** [func (tokenStore vaultTokenStore) Revoke(userId, token string) error] *)
Definition Revoke (userId token : string) : vaultM error :=
  '(_, err) ← call (logical_Delete (tokenPath userId token));
  Ret err.

(** [for i, key := range keys { tokens[i] = key.(string) }] from index [i]. *)
Fixpoint fill_tokens (keys : list value) (tokens : list string) (i : nat)
  : vaultM (list string) :=
  match keys with
  | [] => Ret tokens
  | key :: keys' =>
      s ← assert_string key;
      fill_tokens keys' (<[i:=s]> tokens) (S i)
  end.

(** [func (tokenStore vaultTokenStore) List(userId string) ([]string, error)] *)
Definition List (userId : string) : vaultM (list string * error) :=
  '(secret, err) ← call (logical_List (listPath userId));
  match err with
  | Some _ => Ret ([], err)
  | None =>
      data ← secret_Data secret;
      keys ← assert_slice (data_index data "keys");
      tokens ← fill_tokens keys (replicate (length keys) EmptyString) 0;
      Ret (tokens, None)
  end.

(** The secret service behind the client: it answers a request from its
    state [S] and moves to a new state. *)
Definition service (S : Type) : Type := request → S → response * S.

(** Running the store's code against a service. *)
Fixpoint exec {S A : Type} (svc : service S) (m : vaultM A) (σ : S)
  : outcome A * S :=
  match m with
  | Ret a => (Returns a, σ)
  | Panic p => (Panics p, σ)
  | Do r k => let '(resp, σ') := svc r σ in exec svc (k resp) σ'
  end.

(** The requests the code sends, in order, against a service. *)
Fixpoint requests {S A : Type} (svc : service S) (m : vaultM A) (σ : S)
  : list request :=
  match m with
  | Ret _ | Panic _ => []
  | Do r k => let '(resp, σ') := svc r σ in r :: requests svc (k resp) σ'
  end.

(** A key-value secret engine to run the store against in examples: it
    keeps the data written at each path, answers a read or a listing of
    nothing with a [nil] secret and a [nil] error, and a delete with
    the same whether or not the path held data. *)
Fixpoint strip_prefix (p s : string) : option string :=
  match p, s with
  | EmptyString, _ => Some s
  | String a p', String b s' =>
      if Ascii.eqb a b then strip_prefix p' s' else None
  | String _ _, EmptyString => None
  end.

Definition children (dir : string) (σ : gmap string (gmap string value))
  : list string :=
  omap (strip_prefix (dir +:+ "/")) (map_to_list σ).*1.

Definition kv : service (gmap string (gmap string value)) :=
  λ r σ,
    match r with
    | logical_Write path data => ((None, None), <[path := data]> σ)
    | logical_Read path =>
        match σ !! path with
        | Some data => ((Some (mkSecret data), None), σ)
        | None => ((None, None), σ)
        end
    | logical_Delete path => ((None, None), delete path σ)
    | logical_List path =>
        match children path σ with
        | [] => ((None, None), σ)
        | cs => ((Some (mkSecret {[ "keys" := VSlice (VString <$> cs) ]}), None), σ)
        end
    end.

(** A service that answers every request with the same response. *)
Definition canned (resp : response) : service unit := λ _ σ, (resp, σ).

(** Modelled from the spec: the secret service behind the client, whose
    code is not in this package.  It is the system of record and takes
    four path-addressed requests: [write(path, {token: value})] puts the
    payload at the path, [read(path)] gives back the payload held at the
    path, [delete(path)] deletes the path, and deleting a path that does
    not exist produces no error, [list(pathPrefix)] gives [{keys: ...}]
    with the names of the children of the directory.  Its state is the
    payload held at each path.  The spec speaks of the service signalling
    absence on a read or a listing without fixing the signal; here it is
    an answer with no secret and no error. *)
Definition secret_service : service (gmap string (gmap string value)) :=
  λ r σ,
    match r with
    | logical_Write path data => ((None, None), <[path := data]> σ)
    | logical_Read path =>
        match σ !! path with
        | Some data => ((Some (mkSecret data), None), σ)
        | None => ((None, None), σ)
        end
    | logical_Delete path => ((None, None), delete path σ)
    | logical_List path =>
        match children path σ with
        | [] => ((None, None), σ)
        | cs => ((Some (mkSecret {[ "keys" := VSlice (VString <$> cs) ]}), None), σ)
        end
    end.

(** The byte of the path separator, 47: ["/"] is [String slash EmptyString]. *)
Definition slash : Ascii.ascii :=
  Ascii.Ascii true true true true false true false false.

(** [s] holds no path separator. *)
Fixpoint slash_free (s : string) : bool :=
  match s with
  | EmptyString => true
  | String a s' => negb (Ascii.eqb a slash) && slash_free s'
  end.

(** A service on which a read of a path answers with the data last
    written there: the step from [σ] by a write of [data] at [path], then
    the read of [path], as [svc] takes them. *)
Definition reads_back {S : Type} (svc : service S) (path : string)
  (data : gmap string value) (σ : S) : Prop :=
  ∃ secret σ1 σ2,
    svc (logical_Write path data) σ = ((secret, None), σ1)
    ∧ svc (logical_Read path) σ1 = ((Some (mkSecret data), None), σ2).

End Vault.

(** * Properties *)

(** ** Copying keys into a slice *)

Section range_facts.
Implicit Types (ks tokens pre rest : list string) (m : gmap string string).

Lemma range_fill_app ks pre rest :
  length ks ≤ length rest →
  range_fill ks (pre ++ rest) (length pre) = pre ++ ks ++ drop (length ks) rest.
Proof.
  revert pre rest. induction ks as [|k ks IH]; intros pre rest Hlen.
  - done.
  - destruct rest as [|r rest]; simpl in Hlen; [lia|].
    cbn [range_fill]. rewrite insert_app_r_alt by lia.
    replace (length pre - length pre) with 0 by lia. cbn [insert list_insert].
    replace (pre ++ k :: rest) with ((pre ++ [k]) ++ rest)
      by (by rewrite <- (assoc_L (++))).
    replace (S (length pre)) with (length (pre ++ [k]))
      by (rewrite length_app; simpl; lia).
    rewrite IH by lia. by rewrite <- (assoc_L (++)).
Qed.

Lemma range_fill_full ks tokens :
  length tokens = length ks → range_fill ks tokens 0 = ks.
Proof.
  intros Hlen. pose proof (range_fill_app ks [] tokens) as H.
  cbn [app length] in H. rewrite H by lia.
  rewrite drop_ge by lia. by rewrite (right_id_L [] (++)).
Qed.

Lemma keys_length m : length (keys m) = size m.
Proof. unfold keys. by rewrite length_fmap, length_map_to_list. Qed.

Lemma keys_NoDup m : NoDup (keys m).
Proof. apply NoDup_fst_map_to_list. Qed.

Lemma elem_of_keys m t : t ∈ keys m ↔ is_Some (m !! t).
Proof.
  unfold keys. rewrite list_elem_of_fmap. split.
  - intros [[k v] [-> Hin]]. apply elem_of_map_to_list in Hin. by exists v.
  - intros [v Hv]. exists (t, v). split; [done|]. by apply elem_of_map_to_list.
Qed.

Lemma range_order_keys m : range_order m (keys m).
Proof. by unfold range_order. Qed.

Lemma range_order_length m ks : range_order m ks → length ks = size m.
Proof. intros H. by rewrite H, keys_length. Qed.

Lemma range_order_NoDup m ks : range_order m ks → NoDup ks.
Proof. intros H. rewrite H. apply keys_NoDup. Qed.

Lemma range_order_elem_of m ks t :
  range_order m ks → t ∈ ks ↔ is_Some (m !! t).
Proof. intros H. rewrite H. apply elem_of_keys. Qed.

Lemma map_index_Some m k v : m !! k = Some v → map_index m k = v.
Proof. unfold map_index. by intros ->. Qed.

Lemma map_index_None m k : m !! k = None → map_index m k = EmptyString.
Proof. unfold map_index. by intros ->. Qed.
End range_facts.

(** ** The in-memory store: each user's tokens *)

Module InMemoryFacts.
Import InMemory.

Lemma stored_tokens_of u t s : stored u t s ↔ is_Some (tokens_of u s !! t).
Proof.
  unfold stored, tokens_of. split.
  - intros (l & -> & H). done.
  - destruct (store s !! u) as [l|]; [eauto|].
    rewrite lookup_empty. by intros [? ?].
Qed.

Lemma Lookup_tokens_of u t s : Lookup u t s = (map_index (tokens_of u s) t, None).
Proof.
  unfold Lookup, tokens_of. destruct (store s !! u); [done|].
  by rewrite map_index_None by apply lookup_empty.
Qed.

Lemma collect_keys_order m ks : range_order m ks → collect_keys m ks = ks.
Proof.
  intros H. unfold collect_keys. apply range_fill_full.
  by rewrite length_replicate, (range_order_length m ks).
Qed.

Lemma List_keys u s :
  List u s = (if store s !! u is Some _ then keys (tokens_of u s) else [], None).
Proof.
  unfold List, tokens_of. destruct (store s !! u); [|done].
  by rewrite collect_keys_order by apply range_order_keys.
Qed.

Lemma List_returns_inv u s r :
  List_returns u s r →
  r.2 = None ∧
  if store s !! u is Some _ then range_order (tokens_of u s) r.1 else r.1 = [].
Proof.
  unfold tokens_of. intros [l ks Hl Hks | Hu]; rewrite ?Hl, ?Hu; simpl; [|done].
  by rewrite collect_keys_order.
Qed.

Lemma List_returns_intro u s ks :
  (if store s !! u is Some _ then range_order (tokens_of u s) ks else ks = []) →
  List_returns u s (ks, None).
Proof.
  unfold tokens_of. destruct (store s !! u) as [l|] eqn:Hu; intros H.
  - rewrite <- (collect_keys_order _ _ H) at 1. by eapply List_known.
  - subst ks. by apply List_unknown.
Qed.

Lemma List_returns_List u s : List_returns u s (List u s).
Proof.
  rewrite List_keys. apply List_returns_intro.
  destruct (store s !! u); [apply range_order_keys | done].
Qed.

Lemma List_returns_elem_of u s r t :
  List_returns u s r → t ∈ r.1 ↔ stored u t s.
Proof.
  intros [_ H]%List_returns_inv. rewrite stored_tokens_of.
  unfold tokens_of in *. destruct (store s !! u) as [l|].
  - by apply range_order_elem_of.
  - rewrite H, lookup_empty. split; [by intros ?%elem_of_nil | by intros [? ?]].
Qed.

Lemma List_returns_NoDup u s r : List_returns u s r → NoDup r.1.
Proof.
  intros [_ H]%List_returns_inv. destruct (store s !! u).
  - by eapply range_order_NoDup.
  - rewrite H. constructor.
Qed.

(** *** What [Store] and [Revoke] do to the state *)

Lemma Store_error u t s : (Store u t s).1 = None.
Proof. unfold Store. by destruct (store s !! u). Qed.

Lemma Revoke_error u t s : (Revoke u t s).1 = None.
Proof. unfold Revoke. by destruct (store s !! u). Qed.

Lemma Store_known u t s l :
  store s !! u = Some l →
  (Store u t s).2 =
    {| store := store s;
       maps := <[l := <[t:=t]> (deref s l)]> (maps s);
       next := next s |}.
Proof.
  intros Hu. unfold Store. rewrite Hu.
  unfold store_assign, map_assign. cbn. by rewrite insert_id.
Qed.

Lemma Store_unknown u t s :
  store s !! u = None →
  (Store u t s).2 =
    {| store := <[u := next s]> (store s);
       maps := <[next s := {[t:=t]}]> (maps s);
       next := S (next s) |}.
Proof.
  intros Hu. unfold Store. rewrite Hu.
  unfold store_assign, map_assign, make_map, deref. cbn.
  by rewrite lookup_total_insert_eq, insert_insert_eq, insert_empty.
Qed.

Lemma Revoke_known u t s l :
  store s !! u = Some l →
  (Revoke u t s).2 =
    {| store := store s;
       maps := <[l := delete t (deref s l)]> (maps s);
       next := next s |}.
Proof. intros Hu. unfold Revoke. by rewrite Hu. Qed.

Lemma Revoke_unknown u t s : store s !! u = None → (Revoke u t s).2 = s.
Proof. intros Hu. unfold Revoke. by rewrite Hu. Qed.

(** *** The invariant of reachable states *)

Lemma wf_new : wf NewInMemoryTokenStore.
Proof. split; cbn; intros *; by rewrite lookup_empty. Qed.

Lemma wf_deref s u l : wf s → store s !! u = Some l → maps s !! l = Some (deref s l).
Proof.
  intros Hwf Hu. destruct (wf_alloc s Hwf u l Hu) as [_ [m Hm]].
  unfold deref. by rewrite (lookup_total_correct _ _ _ Hm).
Qed.

Lemma wf_Store u t s : wf s → wf (Store u t s).2.
Proof.
  intros Hwf. destruct (store s !! u) as [l|] eqn:Hu.
  - rewrite (Store_known u t s l Hu). split; cbn.
    + intros u' l' Hu'. destruct (wf_alloc s Hwf u' l' Hu') as [? ?].
      split; [done|]. rewrite lookup_insert. case_decide; eauto.
    + apply (wf_inj s Hwf).
    + intros l' m k v. rewrite lookup_insert. case_decide as Hl.
      * intros [= <-]. rewrite lookup_insert. case_decide; [congruence|].
        apply (wf_value s Hwf l). by eapply wf_deref.
      * apply (wf_value s Hwf).
  - rewrite (Store_unknown u t s Hu). split; cbn.
    + intros u' l'. rewrite !lookup_insert. case_decide as Hu'.
      * intros [= <-]. split; [lia|]. case_decide; [eauto|done].
      * intros [? ?]%(wf_alloc s Hwf). split; [lia|]. case_decide; eauto.
    + intros u1 u2 l'. rewrite !lookup_insert.
      repeat case_decide; subst; try done.
      * intros [= <-] [? ?]%(wf_alloc s Hwf). lia.
      * intros [? ?]%(wf_alloc s Hwf) [= <-]. lia.
      * apply (wf_inj s Hwf).
    + intros l' m k v. rewrite lookup_insert. case_decide.
      * intros [= <-]. by intros [-> ->]%lookup_singleton_Some.
      * apply (wf_value s Hwf).
Qed.

Lemma wf_Revoke u t s : wf s → wf (Revoke u t s).2.
Proof.
  intros Hwf. destruct (store s !! u) as [l|] eqn:Hu.
  - rewrite (Revoke_known u t s l Hu). split; cbn.
    + intros u' l' Hu'. destruct (wf_alloc s Hwf u' l' Hu') as [? ?].
      split; [done|]. rewrite lookup_insert. case_decide; eauto.
    + apply (wf_inj s Hwf).
    + intros l' m k v. rewrite lookup_insert. case_decide.
      * intros [= <-]. rewrite lookup_delete. case_decide; [done|].
        apply (wf_value s Hwf l). by eapply wf_deref.
      * apply (wf_value s Hwf).
  - by rewrite (Revoke_unknown u t s Hu).
Qed.

Lemma wf_step s c : wf s → wf (step s c).
Proof. destruct c; cbn; auto using wf_Store, wf_Revoke. Qed.

Lemma reachable_wf s : reachable s → wf s.
Proof. induction 1; auto using wf_new, wf_step. Qed.

Lemma reachable_run cs s : reachable s → reachable (run cs s).
Proof.
  revert s. induction cs as [|c cs IH]; intros s Hs; [done|].
  cbn. apply IH. by constructor.
Qed.

(** *** [Store] and [Revoke] seen on each user's tokens *)

Lemma tokens_of_Store u t s u' :
  wf s →
  tokens_of u' (Store u t s).2 =
    if decide (u' = u) then <[t:=t]> (tokens_of u s) else tokens_of u' s.
Proof.
  intros Hwf. unfold tokens_of. destruct (store s !! u) as [l|] eqn:Hu.
  - rewrite (Store_known u t s l Hu). unfold deref. cbn.
    case_decide as Hd; [subst u'; rewrite Hu; by rewrite lookup_total_insert_eq|].
    destruct (store s !! u') as [l'|] eqn:Hu'; [|done].
    rewrite lookup_total_insert_ne; [done|].
    intros <-. apply Hd. by eapply (wf_inj s Hwf).
  - rewrite (Store_unknown u t s Hu). unfold deref. cbn. rewrite lookup_insert.
    case_decide as Hd; [subst u'|].
    + rewrite decide_True by done. by rewrite lookup_total_insert_eq, insert_empty.
    + rewrite decide_False by done.
      destruct (store s !! u') as [l'|] eqn:Hu'; [|done].
      rewrite lookup_total_insert_ne; [done|].
      destruct (wf_alloc s Hwf u' l' Hu'). lia.
Qed.

Lemma tokens_of_Revoke u t s u' :
  wf s →
  tokens_of u' (Revoke u t s).2 =
    if decide (u' = u) then delete t (tokens_of u s) else tokens_of u' s.
Proof.
  intros Hwf. unfold tokens_of. destruct (store s !! u) as [l|] eqn:Hu.
  - rewrite (Revoke_known u t s l Hu). unfold deref. cbn.
    case_decide as Hd; [subst u'; rewrite Hu; by rewrite lookup_total_insert_eq|].
    destruct (store s !! u') as [l'|] eqn:Hu'; [|done].
    rewrite lookup_total_insert_ne; [done|].
    intros <-. apply Hd. by eapply (wf_inj s Hwf).
  - rewrite (Revoke_unknown u t s Hu).
    case_decide; [subst u'; by rewrite Hu, delete_empty|done].
Qed.

Lemma store_Revoke u t s : store (Revoke u t s).2 = store s.
Proof.
  destruct (store s !! u) as [l|] eqn:Hu.
  - by rewrite (Revoke_known u t s l Hu).
  - by rewrite (Revoke_unknown u t s Hu).
Qed.

Lemma Store_post u t s :
  ∃ l m, store (Store u t s).2 !! u = Some l
         ∧ maps (Store u t s).2 !! l = Some m
         ∧ m !! t = Some t.
Proof.
  destruct (store s !! u) as [l|] eqn:Hu.
  - rewrite (Store_known u t s l Hu). cbn. exists l, (<[t:=t]> (deref s l)).
    by rewrite !lookup_insert_eq.
  - rewrite (Store_unknown u t s Hu). cbn. exists (next s), {[t:=t]}.
    by rewrite !lookup_insert_eq, lookup_singleton_eq.
Qed.

Lemma absent_step u t s c :
  wf s → tokens_of u s !! t = None → c ≠ CallStore u t →
  tokens_of u (step s c) !! t = None.
Proof.
  intros Hwf Habs Hc. destruct c as [u' t'|u' t'|u' t'|u']; cbn; try done.
  - rewrite tokens_of_Store by done. case_decide; [subst u'|done].
    rewrite lookup_insert_ne; [done|]. congruence.
  - rewrite tokens_of_Revoke by done. case_decide; [subst u'|done].
    rewrite lookup_delete. by case_decide.
Qed.

Lemma absent_run u t cs s :
  wf s → tokens_of u s !! t = None → CallStore u t ∉ cs →
  tokens_of u (run cs s) !! t = None.
Proof.
  revert s. induction cs as [|c cs IH]; intros s Hwf Habs Hcs; [done|].
  apply not_elem_of_cons in Hcs as [Hc Hcs]. cbn.
  apply IH; [by apply wf_step | by apply absent_step | done].
Qed.

(** *** The properties of the in-memory store *)

(** Unknown user, in memory: [Lookup] gives the empty string and [List]
    the empty sequence, both with a [nil] error. *)
Lemma unknown_user u t s :
  store s !! u = None →
  Lookup u t s = (EmptyString, None)
  ∧ List u s = ([], None)
  ∧ ∀ r, List_returns u s r → r = ([], None).
Proof.
  intros Hu. unfold Lookup, List. rewrite Hu. split_and!; try done.
  intros r Hr. apply List_returns_inv in Hr as [? Hr]. rewrite Hu in Hr.
  destruct r; simpl in *; by subst.
Qed.

(** Unknown token under any user, in memory: [Lookup] gives the empty
    string with a [nil] error. *)
Lemma unknown_token u t s :
  ¬ stored u t s → Lookup u t s = (EmptyString, None).
Proof.
  rewrite stored_tokens_of, Lookup_tokens_of. intros H.
  rewrite map_index_None; [done|]. by apply eq_None_not_Some.
Qed.

Lemma Lookup_after_Store u t s : Lookup u t (Store u t s).2 = (t, None).
Proof.
  destruct (Store_post u t s) as (l & m & Hu & Hl & Ht).
  unfold Lookup. rewrite Hu. unfold deref.
  rewrite (lookup_total_correct _ _ _ Hl). by rewrite (map_index_Some _ _ _ Ht).
Qed.

(** C3: after [Store(u,t)], from any state, [Store] has returned a [nil]
    error and [Lookup(u,t)] returns [t] with a [nil] error. *)
Theorem Store_then_Lookup u t s :
  (Store u t s).1 = None ∧ Lookup u t (Store u t s).2 = (t, None).
Proof. split; [apply Store_error | apply Lookup_after_Store]. Qed.

(** C4: after [Revoke(u,t)] on a reachable state, and after any further
    calls none of which is [Store(u,t)], [Lookup(u,t)] returns the empty
    string with a [nil] error and no result of [List(u)] contains [t];
    a later [Store(u,t)] makes [Lookup(u,t)] return [t] again. *)
Theorem Revoke_absent_until_Store u t s cs :
  reachable s →
  CallStore u t ∉ cs →
  Lookup u t (run cs (Revoke u t s).2) = (EmptyString, None)
  ∧ (∀ r, List_returns u (run cs (Revoke u t s).2) r → r.2 = None ∧ t ∉ r.1)
  ∧ Lookup u t (Store u t (run cs (Revoke u t s).2)).2 = (t, None).
Proof.
  intros Hs%reachable_wf Hcs.
  assert (tokens_of u (run cs (Revoke u t s).2) !! t = None) as Habs.
  { apply absent_run; [by apply wf_Revoke | | done].
    rewrite tokens_of_Revoke by done. rewrite decide_True by done.
    apply lookup_delete_eq. }
  split_and!.
  - rewrite Lookup_tokens_of. by rewrite map_index_None.
  - intros r Hr. split; [by apply List_returns_inv in Hr as [? _]|].
    rewrite (List_returns_elem_of _ _ _ t Hr), stored_tokens_of, Habs.
    by intros [? ?].
  - apply Lookup_after_Store.
Qed.

Lemma reachable_scenario : reachable scenario.
Proof. apply reachable_run, reachable_new. Qed.

Lemma Revoke_absent_until_Store_witness :
  let cs := [CallStore "alice" "tok-2"; CallStore "bob" "tok-1";
             CallRevoke "bob" "x"; CallList "alice"] in
  reachable scenario
  ∧ (CallStore "alice" "tok-1" ∉ cs)
  ∧ Lookup "alice" "tok-1" (run cs (Revoke "alice" "tok-1" scenario).2)
    = (EmptyString, None)
  ∧ (∀ r, List_returns "alice" (run cs (Revoke "alice" "tok-1" scenario).2) r →
          r.2 = None ∧ "tok-1" ∉ r.1)
  ∧ Lookup "alice" "tok-1"
      (Store "alice" "tok-1" (run cs (Revoke "alice" "tok-1" scenario).2)).2
    = ("tok-1", None).
Proof.
  intros cs.
  assert (reachable scenario) as Hs by apply reachable_scenario.
  assert (CallStore "alice" "tok-1" ∉ cs) as Hcs
    by (apply (bool_decide_unpack _); vm_compute; exact I).
  split; [exact Hs|]. split; [exact Hcs|].
  exact (Revoke_absent_until_Store "alice" "tok-1" scenario cs Hs Hcs).
Defined.

(** C5: storing the same token twice leaves the state that storing it
    once leaves, and every result of [List(u)] on it holds [t] exactly
    once. *)
Theorem Store_idempotent u t s :
  Store u t (Store u t s).2 = Store u t s
  ∧ count_occ String.eq_dec (List u (Store u t (Store u t s).2).2).1 t = 1
  ∧ ∀ r, List_returns u (Store u t (Store u t s).2).2 r →
         r.2 = None ∧ count_occ String.eq_dec r.1 t = 1.
Proof.
  assert (Store u t (Store u t s).2 = Store u t s) as Heq.
  { destruct (Store_post u t s) as (l & m & Hu & Hl & Ht).
    apply injective_projections; [by rewrite !Store_error|].
    rewrite (Store_known u t _ l Hu). unfold deref.
    rewrite (lookup_total_correct _ _ _ Hl).
    rewrite (insert_id m t t Ht), (insert_id _ l m Hl).
    by destruct (Store u t s).2. }
  assert (∀ r, List_returns u (Store u t s).2 r →
               r.2 = None ∧ count_occ String.eq_dec r.1 t = 1) as Hone.
  { intros r Hr. split; [by apply List_returns_inv in Hr as [? _]|].
    apply NoDup_count_occ'; [by eapply NoDup_ListNoDup, List_returns_NoDup|].
    apply list_elem_of_In, (List_returns_elem_of _ _ _ t Hr).
    destruct (Store_post u t s) as (l & m & Hu & Hl & Ht).
    exists l. split; [done|]. unfold deref.
    rewrite (lookup_total_correct _ _ _ Hl). eauto. }
  rewrite Heq. split_and!; [done| |done].
  apply Hone, List_returns_List.
Qed.

Lemma Store_idempotent_witness :
  List_returns "alice" (Store "alice" "tok-1" (Store "alice" "tok-1" scenario).2).2
    (["tok-2"; "tok-1"], None)
  ∧ count_occ String.eq_dec ["tok-2"; "tok-1"] "tok-1" = 1.
Proof.
  assert (List_returns "alice"
            (Store "alice" "tok-1" (Store "alice" "tok-1" scenario).2).2
            (["tok-2"; "tok-1"], None)) as Hr.
  { apply List_returns_intro. vm_compute. apply perm_swap. }
  split; [exact Hr|].
  exact (proj2 (proj2 (proj2 (Store_idempotent "alice" "tok-1" scenario)) _ Hr)).
Defined.

(** Revoking a token that is not stored, in memory: a [nil] error and
    the very same state. *)
Lemma Revoke_absent u t s :
  reachable s → ¬ stored u t s → Revoke u t s = (None, s).
Proof.
  intros Hwf%reachable_wf Habs. unfold Revoke.
  destruct (store s !! u) as [l|] eqn:Hu; [|done].
  f_equal. unfold map_delete.
  assert (deref s l !! t = None) as Ht.
  { apply eq_None_not_Some. intros H. apply Habs. by exists l. }
  rewrite (delete_id _ _ Ht).
  rewrite (insert_id _ _ _ (wf_deref s u l Hwf Hu)). by destruct s.
Qed.

(** C7: in every state and for every argument, each of the four methods
    of the in-memory store returns a [nil] error. *)
Theorem InMemory_error_nil u t s :
  (Store u t s).1 = None
  ∧ (Lookup u t s).2 = None
  ∧ (Revoke u t s).1 = None
  ∧ (List u s).2 = None
  ∧ ∀ r, List_returns u s r → r.2 = None.
Proof.
  split_and!.
  - apply Store_error.
  - by rewrite Lookup_tokens_of.
  - apply Revoke_error.
  - by rewrite List_keys.
  - intros r Hr. by apply List_returns_inv in Hr as [? _].
Qed.

Lemma InMemory_error_nil_witness :
  List_returns "alice" scenario (["tok-2"; "tok-1"], None)
  ∧ (["tok-2"; "tok-1"], None : error).2 = None.
Proof.
  assert (List_returns "alice" scenario (["tok-2"; "tok-1"], None)) as Hr.
  { apply List_returns_intro. vm_compute. apply perm_swap. }
  split; [exact Hr|].
  exact (proj2 (proj2 (proj2 (proj2
    (InMemory_error_nil "alice" "tok-1" scenario)))) _ Hr).
Defined.

(** C9: in a reachable state [Lookup(u,t)] returns [t] when [t] is stored
    under [u] and the empty string when it is not, with a [nil] error
    either way; the value kept under the key [t] of [store[u]] is [t]. *)
Theorem Lookup_token_or_empty u t s :
  reachable s →
  ((stored u t s ∧ Lookup u t s = (t, None))
   ∨ (¬ stored u t s ∧ Lookup u t s = (EmptyString, None)))
  ∧ ∀ userTokens v,
      store s !! u = Some userTokens → deref s userTokens !! t = Some v → v = t.
Proof.
  intros Hwf%reachable_wf.
  assert (∀ l v, store s !! u = Some l → deref s l !! t = Some v → v = t) as Hv.
  { intros l v Hu Ht. eapply (wf_value s Hwf l); [|done]. by eapply wf_deref. }
  split; [|done].
  destruct (tokens_of u s !! t) as [v|] eqn:Ht.
  - left. split; [apply stored_tokens_of; eauto|].
    rewrite Lookup_tokens_of, (map_index_Some _ _ _ Ht). f_equal.
    unfold tokens_of in Ht. destruct (store s !! u) as [l|] eqn:Hu.
    + by eapply Hv.
    + by rewrite lookup_empty in Ht.
  - right. split; [|apply unknown_token];
      rewrite stored_tokens_of, Ht; by intros [? ?].
Qed.

Lemma Lookup_token_or_empty_witness :
  reachable scenario
  ∧ Lookup "alice" "tok-1" scenario = ("tok-1", None)
  ∧ Lookup "alice" "x" scenario = (EmptyString, None).
Proof.
  assert (reachable scenario) as Hs by apply reachable_scenario.
  split; [exact Hs|]. split.
  - destruct (proj1 (Lookup_token_or_empty "alice" "tok-1" scenario Hs))
      as [[_ H]|[_ H]]; [exact H|vm_compute in H; discriminate H].
  - destruct (proj1 (Lookup_token_or_empty "alice" "x" scenario Hs))
      as [[_ H]|[_ H]]; [vm_compute in H; discriminate H|exact H].
Defined.

(** C10: on a reachable state [Store(u,t)] and [Revoke(u,t)] leave
    [Lookup(u',t')] as it was for every pair other than [(u,t)], and
    leave the results of [List(u')] as they were for every other user. *)
Theorem Store_Revoke_frame u t u' t' s :
  reachable s →
  ((u', t') ≠ (u, t) →
     Lookup u' t' (Store u t s).2 = Lookup u' t' s
     ∧ Lookup u' t' (Revoke u t s).2 = Lookup u' t' s)
  ∧ (u' ≠ u →
     List u' (Store u t s).2 = List u' s
     ∧ List u' (Revoke u t s).2 = List u' s
     ∧ ∀ r, (List_returns u' (Store u t s).2 r ↔ List_returns u' s r)
            ∧ (List_returns u' (Revoke u t s).2 r ↔ List_returns u' s r)).
Proof.
  intros Hwf%reachable_wf. split.
  - intros Hne. rewrite !Lookup_tokens_of.
    rewrite tokens_of_Store, tokens_of_Revoke by done.
    case_decide as Hu; [subst u'|done].
    assert (t' ≠ t) as Ht by congruence.
    unfold map_index. by rewrite lookup_insert_ne, lookup_delete_ne.
  - intros Hu.
    assert (store (Store u t s).2 !! u' = store s !! u') as HS.
    { destruct (store s !! u) as [l|] eqn:Hl.
      - by rewrite (Store_known u t s l Hl).
      - rewrite (Store_unknown u t s Hl). cbn. by rewrite lookup_insert_ne. }
    assert (tokens_of u' (Store u t s).2 = tokens_of u' s) as HTS
      by (rewrite tokens_of_Store by done; by rewrite decide_False).
    assert (tokens_of u' (Revoke u t s).2 = tokens_of u' s) as HTR
      by (rewrite tokens_of_Revoke by done; by rewrite decide_False).
    split_and!.
    + by rewrite !List_keys, HS, HTS.
    + by rewrite !List_keys, store_Revoke, HTR.
    + intros r. split; split; intros [He Hr]%List_returns_inv;
        destruct r as [ks e]; simpl in *; subst e; apply List_returns_intro;
        rewrite ?store_Revoke, ?HS, ?HTS, ?HTR in *; done.
Qed.

Lemma Store_Revoke_frame_witness :
  reachable scenario
  ∧ ("alice", "tok-2") ≠ ("alice", "tok-1")
  ∧ "bob" ≠ "alice"
  ∧ Lookup "alice" "tok-2" (Revoke "alice" "tok-1" scenario).2
    = Lookup "alice" "tok-2" scenario
  ∧ List "bob" (Store "alice" "tok-3" scenario).2 = List "bob" scenario.
Proof.
  assert (reachable scenario) as Hs by apply reachable_scenario.
  assert (("alice", "tok-2") ≠ ("alice", "tok-1")) as Hp by discriminate.
  assert ("bob" ≠ "alice") as Hu by discriminate.
  split; [exact Hs|]. split; [exact Hp|]. split; [exact Hu|]. split.
  - exact (proj2 (proj1
      (Store_Revoke_frame "alice" "tok-1" "alice" "tok-2" scenario Hs) Hp)).
  - exact (proj1 (proj2
      (Store_Revoke_frame "alice" "tok-3" "bob" "x" scenario Hs) Hu)).
Defined.

End InMemoryFacts.

(** ** The Vault store: one request, then the response unchecked *)

Module VaultFacts.
Import Vault.

Section against_a_service.
Context {S : Type} (svc : service S).
Implicit Types (σ : S) (u t : string) (secret : option Secret) (err : error).

Lemma exec_Store u t σ secret err σ' :
  svc (logical_Write (tokenPath u t) {[ "token" := VString t ]}) σ
    = ((secret, err), σ') →
  exec svc (Store u t) σ = (Returns err, σ').
Proof. intros H. cbn. by rewrite H. Qed.

Lemma exec_Revoke u t σ secret err σ' :
  svc (logical_Delete (tokenPath u t)) σ = ((secret, err), σ') →
  exec svc (Revoke u t) σ = (Returns err, σ').
Proof. intros H. cbn. by rewrite H. Qed.

Lemma exec_Lookup u t σ :
  exec svc (Lookup u t) σ =
    let '((secret, err), σ') := svc (logical_Read (tokenPath u t)) σ in
    match err, secret with
    | Some _, _ => (Returns (EmptyString, err), σ')
    | None, None => (Panics NilDereference, σ')
    | None, Some sec =>
        match data_index (Data sec) "token" with
        | VString tok => (Returns (tok, None), σ')
        | VNil | VSlice _ | VOther _ => (Panics InterfaceConversion, σ')
        end
    end.
Proof.
  cbn. destruct (svc _ σ) as [[secret err] σ'].
  destruct err as [e|]; [done|]. destruct secret as [sec|]; [|done].
  cbn. by destruct (data_index (Data sec) "token").
Qed.

(** [Lookup] returns the empty string with a [nil] error only when the
    service hands back a secret whose token field is the empty string. *)
Lemma Lookup_empty_result u t σ σ' :
  exec svc (Lookup u t) σ = (Returns (EmptyString, None), σ') ↔
  ∃ sec, svc (logical_Read (tokenPath u t)) σ = ((Some sec, None), σ')
         ∧ data_index (Data sec) "token" = VString EmptyString.
Proof.
  rewrite exec_Lookup. destruct (svc _ σ) as [[secret err] σ0].
  split.
  - destruct err as [e|]; [intros [=]|]. destruct secret as [sec|]; [|intros [=]].
    destruct (data_index (Data sec) "token") eqn:Hd; intros [= -> ->].
    by exists sec.
  - intros (sec & [= -> -> ->] & Hd). by rewrite Hd.
Qed.

Lemma fill_tokens_app (l pre : list string) (rest : list string) :
  length l ≤ length rest →
  fill_tokens (VString <$> l) (pre ++ rest) (length pre)
    = Ret (pre ++ l ++ drop (length l) rest).
Proof.
  revert pre rest. induction l as [|k l IH]; intros pre rest Hlen; [done|].
  destruct rest as [|r rest]; simpl in Hlen; [lia|].
  cbn. rewrite insert_app_r_alt by lia.
  replace (length pre - length pre) with 0 by lia. cbn [insert list_insert].
  replace (pre ++ k :: rest) with ((pre ++ [k]) ++ rest)
    by (by rewrite <- (assoc_L (++))).
  replace (Datatypes.S (length pre)) with (length (pre ++ [k]))
    by (rewrite length_app; simpl; lia).
  rewrite IH by lia. by rewrite <- (assoc_L (++)).
Qed.

(** A listing whose keys are all strings comes back as those strings. *)
Lemma exec_List_strings u σ sec l σ' :
  svc (logical_List (listPath u)) σ = ((Some sec, None), σ') →
  Data sec !! "keys" = Some (VSlice (VString <$> l)) →
  exec svc (List u) σ = (Returns (l, None), σ').
Proof.
  intros Hsvc Hkeys. cbn. rewrite Hsvc. cbn. unfold data_index.
  rewrite Hkeys. cbn.
  pose proof (fill_tokens_app l [] (replicate (length (VString <$> l)) EmptyString))
    as H. cbn [app length] in H.
  rewrite H by (by rewrite length_replicate, length_fmap).
  rewrite drop_ge by (by rewrite length_replicate, length_fmap).
  by rewrite (right_id_L [] (++)).
Qed.

(** The loop over the keys of a listing sends no request. *)
Lemma fill_tokens_quiet keys tokens i :
  match fill_tokens keys tokens i with Do _ _ => False | _ => True end.
Proof.
  revert tokens i. induction keys as [|key keys IH]; intros tokens i; [done|].
  cbn. destruct key; cbn; try done. apply IH.
Qed.

(** C1, on the Vault store: when the service answers the read of a path
    that holds nothing, or the listing of a user it does not know, with
    a [nil] secret and a [nil] error, [Lookup] and [List] panic on the
    [nil] pointer; they do not return an empty result. *)
Theorem absent_secret_panics u t σ :
  (∀ σ', svc (logical_Read (tokenPath u t)) σ = ((None, None), σ') →
         exec svc (Lookup u t) σ = (Panics NilDereference, σ'))
  ∧ (∀ σ', svc (logical_List (listPath u)) σ = ((None, None), σ') →
           exec svc (List u) σ = (Panics NilDereference, σ')).
Proof.
  split; intros σ' H.
  - rewrite exec_Lookup. by rewrite H.
  - cbn. by rewrite H.
Qed.

(** C2, on the Vault store: when the secret of the response has no
    [token] field (for [Lookup]) or no [keys] field (for [List]), the
    type assertion panics; no error is returned. *)
Theorem missing_field_panics u t σ sec σ' :
  (svc (logical_Read (tokenPath u t)) σ = ((Some sec, None), σ') →
   Data sec !! "token" = None →
   exec svc (Lookup u t) σ = (Panics InterfaceConversion, σ'))
  ∧ (svc (logical_List (listPath u)) σ = ((Some sec, None), σ') →
     Data sec !! "keys" = None →
     exec svc (List u) σ = (Panics InterfaceConversion, σ')).
Proof.
  split; intros H Hd.
  - rewrite exec_Lookup, H. unfold data_index. by rewrite Hd.
  - cbn. rewrite H. cbn. unfold data_index. by rewrite Hd.
Qed.

(** C8, as the code has it: each method sends exactly one request, at
    [secret/accesstokens/<userId>/<token>] for [Store], [Lookup] and
    [Revoke] and at [secret/accesstokens/<userId>] for [List], whatever
    the service answers. *)
Theorem request_paths u t σ :
  requests svc (Store u t) σ
    = [logical_Write ("secret/accesstokens/" +:+ u +:+ "/" +:+ t)
         {[ "token" := VString t ]}]
  ∧ requests svc (Lookup u t) σ
    = [logical_Read ("secret/accesstokens/" +:+ u +:+ "/" +:+ t)]
  ∧ requests svc (Revoke u t) σ
    = [logical_Delete ("secret/accesstokens/" +:+ u +:+ "/" +:+ t)]
  ∧ requests svc (List u) σ
    = [logical_List ("secret/accesstokens/" +:+ u)].
Proof.
  split_and!; cbn.
  - by destruct (svc _ σ) as [[secret err] σ'].
  - destruct (svc _ σ) as [[secret err] σ'].
    destruct err; [done|]. destruct secret as [sec|]; [|done].
    cbn. by destruct (data_index (Data sec) "token").
  - by destruct (svc _ σ) as [[secret err] σ'].
  - destruct (svc _ σ) as [[secret err] σ'].
    destruct err; [done|]. destruct secret as [sec|]; [|done].
    cbn. destruct (data_index (Data sec) "keys") as [|?|keys|?]; try done.
    cbn. pose proof (fill_tokens_quiet keys
      (replicate (length keys) EmptyString) 0) as Hq.
    by destruct (fill_tokens _ _ _).
Qed.
End against_a_service.

(** Against the key-value engine, what [Store] wrote [Lookup] reads back. *)
Lemma kv_Store_Lookup u t σ :
  exec kv (Lookup u t) (exec kv (Store u t) σ).2
    = (Returns (t, None), <[tokenPath u t := {[ "token" := VString t ]}]> σ).
Proof.
  rewrite (exec_Store kv u t σ None None (<[tokenPath u t := {[ "token" := VString t ]}]> σ))
    by done.
  rewrite exec_Lookup. cbn [kv snd]. rewrite lookup_insert_eq.
  unfold data_index. cbn [Data]. by rewrite lookup_singleton_eq.
Qed.

Lemma absent_secret_panics_witness :
  kv (logical_Read (tokenPath "bob" "x")) ∅ = ((None, None), ∅)
  ∧ exec kv (Lookup "bob" "x") ∅ = (Panics NilDereference, ∅)
  ∧ kv (logical_List (listPath "bob")) ∅ = ((None, None), ∅)
  ∧ exec kv (List "bob") ∅ = (Panics NilDereference, ∅).
Proof.
  assert (kv (logical_Read (tokenPath "bob" "x")) ∅ = ((None, None), ∅))
    as HR by reflexivity.
  assert (kv (logical_List (listPath "bob")) ∅ = ((None, None), ∅))
    as HL by reflexivity.
  split; [exact HR|]. split; [|split; [exact HL|]].
  - exact (proj1 (absent_secret_panics kv "bob" "x" ∅) ∅ HR).
  - exact (proj2 (absent_secret_panics kv "bob" "x" ∅) ∅ HL).
Defined.

Lemma missing_field_panics_witness :
  let svc := canned (Some (mkSecret ∅), None) in
  exec svc (Lookup "alice" "tok-1") () = (Panics InterfaceConversion, ())
  ∧ exec svc (List "alice") () = (Panics InterfaceConversion, ()).
Proof.
  intros svc.
  pose proof (missing_field_panics svc "alice" "tok-1" () (mkSecret ∅) ())
    as [HL HK].
  split; [apply HL | apply HK]; reflexivity.
Defined.

(** C8 as the specification words it does not hold: the path [Lookup]
    reads for alice's token tok-1 is not [accesstokens/alice/tok-1], and
    the path [List] lists for alice is not [accesstokens/alice]. *)
Lemma request_paths_not_bare :
  requests kv (Lookup "alice" "tok-1") ∅
    = [logical_Read "secret/accesstokens/alice/tok-1"]
  ∧ requests kv (Lookup "alice" "tok-1") ∅
    ≠ [logical_Read "accesstokens/alice/tok-1"]
  ∧ requests kv (List "alice") ∅ = [logical_List "secret/accesstokens/alice"]
  ∧ requests kv (List "alice") ∅ ≠ [logical_List "accesstokens/alice"].
Proof. split_and!; [reflexivity | discriminate | reflexivity | discriminate]. Qed.

End VaultFacts.

(** ** Revoking what is not there, in both stores *)

(** On the secret service of the spec, [Revoke] deletes the path of the
    token and returns a [nil] error, whether the path held data or not. *)
Lemma Revoke_deletes_path (u t : string) (σ : gmap string (gmap string Vault.value)) :
  Vault.exec Vault.secret_service (Vault.Revoke u t) σ
  = (Vault.Returns None, delete (Vault.tokenPath u t) σ).
Proof.
  by apply (VaultFacts.exec_Revoke Vault.secret_service u t σ None None).
Qed.

(** C6: revoking a token that is not stored returns a [nil] error and
    changes nothing, in both stores.  In memory, on a reachable state
    where [t] is not stored under [u], the state after [Revoke(u,t)] is
    the state before.  On Vault, against the secret service of the spec
    in any state where the path of [(u,t)] holds nothing, [Revoke(u,t)]
    returns a [nil] error and the service holds what it held. *)
Theorem Revoke_absent_noop (u t : string) :
  (∀ s, InMemory.reachable s → ¬ InMemory.stored u t s →
        InMemory.Revoke u t s = (None, s))
  ∧ (∀ σ : gmap string (gmap string Vault.value),
       σ !! Vault.tokenPath u t = None →
       Vault.exec Vault.secret_service (Vault.Revoke u t) σ
       = (Vault.Returns None, σ)).
Proof.
  split.
  - intros s. apply InMemoryFacts.Revoke_absent.
  - intros σ Habs. by rewrite Revoke_deletes_path, delete_id.
Qed.

Lemma Revoke_absent_noop_witness :
  let σ := (Vault.exec Vault.secret_service (Vault.Store "alice" "tok-1") ∅).2 in
  InMemory.reachable InMemory.scenario
  ∧ ¬ InMemory.stored "alice" "x" InMemory.scenario
  ∧ InMemory.Revoke "alice" "x" InMemory.scenario = (None, InMemory.scenario)
  ∧ σ !! Vault.tokenPath "alice" "tok-1" = Some {[ "token" := Vault.VString "tok-1" ]}
  ∧ σ !! Vault.tokenPath "alice" "x" = None
  ∧ Vault.exec Vault.secret_service (Vault.Revoke "alice" "x") σ
    = (Vault.Returns None, σ).
Proof.
  intros σ.
  assert (InMemory.reachable InMemory.scenario) as Hs
    by apply InMemoryFacts.reachable_scenario.
  assert (¬ InMemory.stored "alice" "x" InMemory.scenario) as Hx.
  { intros (l & Hl & Hx). vm_compute in Hl. injection Hl as <-.
    vm_compute in Hx. by destruct Hx. }
  assert (σ !! Vault.tokenPath "alice" "tok-1"
          = Some {[ "token" := Vault.VString "tok-1" ]}) as Hheld
    by apply lookup_insert_eq.
  assert (σ !! Vault.tokenPath "alice" "x" = None) as Habs.
  { subst σ. cbn. rewrite lookup_insert_ne by discriminate. apply lookup_empty. }
  split; [exact Hs|]. split; [exact Hx|]. split; [|split; [exact Hheld|split; [exact Habs|]]].
  - exact (proj1 (Revoke_absent_noop "alice" "x") _ Hs Hx).
  - exact (proj2 (Revoke_absent_noop "alice" "x") σ Habs).
Defined.

(** ** More on the in-memory store *)

Module InMemoryLaws.
Import InMemory InMemoryFacts.

Lemma run_snoc cs c s : run (cs ++ [c]) s = step (run cs s) c.
Proof. unfold run. by rewrite foldl_app. Qed.

Lemma wf_run cs s : wf s → wf (run cs s).
Proof.
  revert s. induction cs as [|c cs IH]; intros s Hs; [done|].
  cbn. by apply IH, wf_step.
Qed.

Lemma stored_after_Store u t s : stored u t (Store u t s).2.
Proof.
  destruct (Store_post u t s) as (l & m & Hu & Hl & Ht).
  exists l. split; [done|]. unfold deref.
  rewrite (lookup_total_correct _ _ _ Hl). eauto.
Qed.

Lemma stored_Store u t s t' :
  wf s → stored u t' (Store u t s).2 ↔ t' = t ∨ stored u t' s.
Proof.
  intros Hwf. rewrite !stored_tokens_of, tokens_of_Store by done.
  rewrite decide_True by done. rewrite lookup_insert.
  case_decide; subst; split; eauto; intros [?|?]; by subst.
Qed.

Lemma stored_Revoke u t s t' :
  wf s → stored u t' (Revoke u t s).2 ↔ t' ≠ t ∧ stored u t' s.
Proof.
  intros Hwf. rewrite !stored_tokens_of, tokens_of_Revoke by done.
  rewrite decide_True by done. rewrite lookup_delete.
  case_decide; subst; split.
  - by intros [? ?].
  - by intros [? _].
  - intros ?. split; [congruence|done].
  - by intros [_ ?].
Qed.

Lemma stored_step_other u t s c :
  wf s → c ≠ CallStore u t → c ≠ CallRevoke u t →
  stored u t (step s c) ↔ stored u t s.
Proof.
  intros Hwf HS HR. destruct c as [u' t'|u' t'|u' t'|u']; cbn; try done.
  - rewrite !stored_tokens_of, tokens_of_Store by done.
    case_decide; [subst u'|done]. rewrite lookup_insert_ne; [done|congruence].
  - rewrite !stored_tokens_of, tokens_of_Revoke by done.
    case_decide; [subst u'|done]. rewrite lookup_delete_ne; [done|congruence].
Qed.

(** What a store built by [NewInMemoryTokenStore] holds after the calls
    [cs]: [t] is stored under [u] exactly when [cs] has a [Store(u,t)]
    with no [Revoke(u,t)] after it. *)
Theorem stored_iff_last_Store u t cs :
  stored u t (run cs NewInMemoryTokenStore)
  ↔ ∃ cs1 cs2, cs = cs1 ++ CallStore u t :: cs2 ∧ CallRevoke u t ∉ cs2.
Proof.
  induction cs as [|c cs IH] using rev_ind.
  - split.
    + intros (l & Hl & _). cbn in Hl. by rewrite lookup_empty in Hl.
    + intros (cs1 & cs2 & Hcs & _). by destruct cs1.
  - rewrite run_snoc.
    assert (wf (run cs NewInMemoryTokenStore)) as Hwf
      by apply wf_run, wf_new.
    destruct (decide (c = CallStore u t)) as [->|HS].
    { split; [|intros _; apply stored_after_Store].
      intros _. exists cs, []. split; [done|]. apply not_elem_of_nil. }
    destruct (decide (c = CallRevoke u t)) as [->|HR].
    { split.
      - cbn. rewrite stored_Revoke by done. by intros [? _].
      - intros (cs1 & cs2 & Hcs & Hno). exfalso.
        destruct cs2 as [|c2 cs2 _] using rev_ind.
        + apply app_inj_tail in Hcs as [_ [=]].
        + rewrite app_comm_cons, (assoc_L (++)) in Hcs.
          apply app_inj_tail in Hcs as [_ <-].
          apply Hno, elem_of_app. right. apply list_elem_of_singleton. done. }
    rewrite (stored_step_other u t _ c Hwf HS HR), IH. split.
    + intros (cs1 & cs2 & -> & Hno). exists cs1, (cs2 ++ [c]). split.
      * by rewrite <- (assoc_L (++)).
      * rewrite not_elem_of_app. split; [done|].
        rewrite list_elem_of_singleton. congruence.
    + intros (cs1 & cs2 & Hcs & Hno).
      destruct cs2 as [|c2 cs2 _] using rev_ind.
      * apply app_inj_tail in Hcs as [_ ->]. done.
      * rewrite app_comm_cons, (assoc_L (++)) in Hcs.
        apply app_inj_tail in Hcs as [-> <-].
        exists cs1, cs2. split; [done|].
        rewrite not_elem_of_app in Hno. by destruct Hno.
Qed.

Lemma stored_iff_last_Store_witness :
  (CallRevoke "alice" "tok-1" ∉ [CallRevoke "alice" "tok-2"; CallStore "bob" "tok-1"])
  ∧ stored "alice" "tok-1"
      (run [CallStore "alice" "tok-1"; CallRevoke "alice" "tok-1";
            CallStore "alice" "tok-1"; CallRevoke "alice" "tok-2";
            CallStore "bob" "tok-1"] NewInMemoryTokenStore).
Proof.
  assert (CallRevoke "alice" "tok-1"
          ∉ [CallRevoke "alice" "tok-2"; CallStore "bob" "tok-1"]) as Hno
    by (apply (bool_decide_unpack _); vm_compute; exact I).
  split; [exact Hno|].
  apply (stored_iff_last_Store "alice" "tok-1").
  exists [CallStore "alice" "tok-1"; CallRevoke "alice" "tok-1"],
         [CallRevoke "alice" "tok-2"; CallStore "bob" "tok-1"].
  split; [reflexivity | exact Hno].
Defined.

Lemma List_length u s : length (List u s).1 = size (tokens_of u s).
Proof.
  rewrite List_keys. unfold tokens_of. destruct (store s !! u); cbn.
  - apply keys_length.
  - by rewrite map_size_empty.
Qed.

(** Whatever order [range] takes, [List(u)] returns the tokens stored
    under [u], each once and nothing else, with a [nil] error; two
    results differ by their order only. *)
Theorem List_exact u s r :
  List_returns u s r →
  r.2 = None
  ∧ NoDup r.1
  ∧ (∀ t, t ∈ r.1 ↔ stored u t s)
  ∧ length r.1 = size (tokens_of u s)
  ∧ ∀ r', List_returns u s r' → r'.1 ≡ₚ r.1.
Proof.
  intros Hr. split_and!.
  - by apply List_returns_inv in Hr as [? _].
  - by eapply List_returns_NoDup.
  - intros t. by apply List_returns_elem_of.
  - apply List_returns_inv in Hr as [_ Hr]. unfold tokens_of in *.
    destruct (store s !! u).
    + by apply range_order_length.
    + by rewrite Hr, map_size_empty.
  - intros r' Hr'. apply List_returns_inv in Hr as [_ Hr].
    apply List_returns_inv in Hr' as [_ Hr'].
    destruct (store s !! u).
    + unfold range_order in *. by rewrite Hr, Hr'.
    + by rewrite Hr, Hr'.
Qed.

Lemma List_exact_witness :
  List_returns "alice" scenario (["tok-2"; "tok-1"], None)
  ∧ NoDup ["tok-2"; "tok-1"]
  ∧ length ["tok-2"; "tok-1"] = size (tokens_of "alice" scenario).
Proof.
  assert (List_returns "alice" scenario (["tok-2"; "tok-1"], None)) as Hr.
  { apply List_returns_intro. vm_compute. apply perm_swap. }
  split; [exact Hr|].
  pose proof (List_exact "alice" scenario _ Hr) as (_ & Hnd & _ & Hlen & _).
  split; [exact Hnd | exact Hlen].
Defined.

(** On a reachable state [Store(u,t)] adds [t] to the tokens of [u] and
    [Revoke(u,t)] takes it away, both leaving the other tokens of [u];
    [List(u)] grows by one for a token that was not there and shrinks by
    one for a token that was. *)
Theorem Store_Revoke_tokens u t s :
  reachable s →
  (∀ t', stored u t' (Store u t s).2 ↔ t' = t ∨ stored u t' s)
  ∧ (∀ t', stored u t' (Revoke u t s).2 ↔ t' ≠ t ∧ stored u t' s)
  ∧ (¬ stored u t s →
     length (List u (Store u t s).2).1 = S (length (List u s).1))
  ∧ (stored u t s →
     length (List u s).1 = S (length (List u (Revoke u t s).2).1)).
Proof.
  intros Hwf%reachable_wf. split_and!.
  - intros t'. by apply stored_Store.
  - intros t'. by apply stored_Revoke.
  - rewrite stored_tokens_of, !List_length, tokens_of_Store by done.
    rewrite decide_True by done. intros H%eq_None_not_Some.
    by apply map_size_insert_None.
  - rewrite stored_tokens_of, !List_length, tokens_of_Revoke by done.
    rewrite decide_True by done. intros H.
    rewrite map_size_delete_Some by done.
    destruct H as [v Hv]. pose proof (map_size_insert_Some t v _ (mk_is_Some _ _ Hv)) as Hs.
    destruct (size (tokens_of u s)) eqn:Hz; [|done].
    apply map_size_empty_inv in Hz. rewrite Hz in Hv. by rewrite lookup_empty in Hv.
Qed.

Lemma Store_Revoke_tokens_witness :
  reachable scenario
  ∧ ¬ stored "alice" "tok-3" scenario
  ∧ stored "alice" "tok-1" scenario
  ∧ length (List "alice" (Store "alice" "tok-3" scenario).2).1 = 3
  ∧ length (List "alice" (Revoke "alice" "tok-1" scenario).2).1 = 1.
Proof.
  assert (reachable scenario) as Hs by apply reachable_scenario.
  assert (¬ stored "alice" "tok-3" scenario) as H3.
  { intros (l & Hl & Hx). vm_compute in Hl. injection Hl as <-.
    vm_compute in Hx. by destruct Hx. }
  assert (stored "alice" "tok-1" scenario) as H1.
  { exists 0. split; [reflexivity|]. vm_compute. eauto. }
  pose proof (Store_Revoke_tokens "alice" "tok-3" scenario Hs) as (_ & _ & HS & _).
  pose proof (Store_Revoke_tokens "alice" "tok-1" scenario Hs) as (_ & _ & _ & HR).
  split; [exact Hs|]. split; [exact H3|]. split; [exact H1|]. split.
  - rewrite (HS H3). reflexivity.
  - apply (inj S). rewrite <- (HR H1). reflexivity.
Defined.

(** Revoking twice is revoking once, from every state. *)
Theorem Revoke_idempotent u t s :
  Revoke u t (Revoke u t s).2 = Revoke u t s.
Proof.
  apply injective_projections; [by rewrite !Revoke_error|].
  destruct (store s !! u) as [l|] eqn:Hu.
  - rewrite (Revoke_known u t s l Hu).
    rewrite (Revoke_known u t _ l) by done. unfold deref. cbn.
    by rewrite lookup_total_insert_eq, delete_delete_eq, insert_insert_eq.
  - by rewrite !(Revoke_unknown u t s Hu).
Qed.

Lemma store_Store_other u t s v :
  v ≠ u → store (Store u t s).2 !! v = store s !! v.
Proof.
  intros Hv. destruct (store s !! u) as [l|] eqn:Hu.
  - by rewrite (Store_known u t s l Hu).
  - rewrite (Store_unknown u t s Hu). cbn. by rewrite lookup_insert_ne.
Qed.

Lemma store_Store_same u t s : is_Some (store (Store u t s).2 !! u).
Proof. destruct (Store_post u t s) as (l & _ & Hu & _). eauto. Qed.

Lemma known_step u s c : is_Some (store s !! u) → is_Some (store (step s c) !! u).
Proof.
  intros Hu. destruct c as [u' t'|u' t'|u' t'|u']; cbn; try done.
  - destruct (decide (u = u')) as [->|Hne].
    + apply store_Store_same.
    + by rewrite store_Store_other.
  - by rewrite store_Revoke.
Qed.

(** No call makes the store forget a user: once [store] has an entry for
    [u] it has one after any further calls, [Revoke] included. *)
Theorem user_never_forgotten u s cs :
  is_Some (store s !! u) → is_Some (store (run cs s) !! u).
Proof.
  revert s. induction cs as [|c cs IH]; intros s Hu; [done|].
  cbn. by apply IH, known_step.
Qed.

Lemma user_never_forgotten_witness :
  is_Some (store scenario !! "bob")
  ∧ is_Some (store (run [CallRevoke "bob" "x"; CallList "bob"] scenario) !! "bob").
Proof.
  assert (is_Some (store scenario !! "bob")) as Hb by (vm_compute; eauto).
  split; [exact Hb|].
  exact (user_never_forgotten "bob" scenario
           [CallRevoke "bob" "x"; CallList "bob"] Hb).
Defined.

(** For a user the store does not know, [Store(u,t)] then [Revoke(u,t)]
    does not give the state back: the user keeps an entry, with an empty
    map, so [List(u)] now comes from that map and [Lookup] finds nothing. *)
Theorem Store_Revoke_new_user u t s :
  store s !! u = None →
  is_Some (store (Revoke u t (Store u t s).2).2 !! u)
  ∧ tokens_of u (Revoke u t (Store u t s).2).2 = ∅
  ∧ (Revoke u t (Store u t s).2).2 ≠ s
  ∧ List u (Revoke u t (Store u t s).2).2 = ([], None)
  ∧ ∀ t', Lookup u t' (Revoke u t (Store u t s).2).2 = (EmptyString, None).
Proof.
  intros Hu.
  assert (store (Revoke u t (Store u t s).2).2 !! u = Some (next s)) as Hk.
  { rewrite store_Revoke, (Store_unknown u t s Hu). cbn. apply lookup_insert_eq. }
  assert (tokens_of u (Revoke u t (Store u t s).2).2 = ∅) as Ht.
  { unfold tokens_of. rewrite Hk.
    rewrite (Revoke_known u t _ (next s)) by (by rewrite store_Revoke in Hk).
    rewrite (Store_unknown u t s Hu). unfold deref. cbn.
    by rewrite !lookup_total_insert_eq, delete_singleton_eq. }
  split_and!.
  - by rewrite Hk.
  - done.
  - intros Heq. rewrite Heq in Hk. congruence.
  - rewrite List_keys, Hk, Ht. done.
  - intros t'. rewrite Lookup_tokens_of, Ht. by rewrite map_index_None.
Qed.

Lemma Store_Revoke_new_user_witness :
  store scenario !! "carol" = None
  ∧ is_Some (store (Revoke "carol" "c" (Store "carol" "c" scenario).2).2 !! "carol")
  ∧ List "carol" (Revoke "carol" "c" (Store "carol" "c" scenario).2).2 = ([], None).
Proof.
  assert (store scenario !! "carol" = None) as Hc by reflexivity.
  pose proof (Store_Revoke_new_user "carol" "c" scenario Hc) as (Hk & _ & _ & HL & _).
  split; [exact Hc|]. split; [exact Hk | exact HL].
Defined.

Lemma tokens_of_value u s k v :
  wf s → tokens_of u s !! k = Some v → v = k.
Proof.
  intros Hwf. unfold tokens_of. destruct (store s !! u) as [l|] eqn:Hu.
  - apply (wf_value s Hwf l). by eapply wf_deref.
  - by rewrite lookup_empty.
Qed.

(** The empty token cannot be told from a missing one: on a reachable
    state [Lookup(u, empty)] returns the empty string with a [nil] error,
    and it still does right after [Store(u, empty)] has stored it. *)
Theorem empty_token_ambiguous u s :
  reachable s →
  Lookup u EmptyString s = (EmptyString, None)
  ∧ stored u EmptyString (Store u EmptyString s).2
  ∧ Lookup u EmptyString (Store u EmptyString s).2 = (EmptyString, None).
Proof.
  intros Hwf%reachable_wf. split_and!.
  - rewrite Lookup_tokens_of. f_equal. unfold map_index.
    destruct (tokens_of u s !! EmptyString) as [v|] eqn:Hv; [|done].
    by apply tokens_of_value in Hv.
  - apply stored_after_Store.
  - apply Lookup_after_Store.
Qed.

Lemma empty_token_ambiguous_witness :
  reachable scenario
  ∧ Lookup "alice" EmptyString scenario
    = Lookup "alice" EmptyString (Store "alice" EmptyString scenario).2.
Proof.
  assert (reachable scenario) as Hs by apply reachable_scenario.
  split; [exact Hs|].
  pose proof (empty_token_ambiguous "alice" scenario Hs) as (H1 & _ & H2).
  rewrite H1, H2. reflexivity.
Defined.

(** *** The store as a map of maps held by value *)

Lemma contents_lookup s v :
  contents s !! v = (λ _, tokens_of v s) <$> store s !! v.
Proof.
  unfold contents, tokens_of. rewrite lookup_fmap. by destruct (store s !! v).
Qed.

Lemma tokens_of_contents s v : tokens_of v s = default ∅ (contents s !! v).
Proof.
  rewrite contents_lookup. unfold tokens_of. by destruct (store s !! v).
Qed.

Lemma contents_Store u t s :
  wf s → contents (Store u t s).2 = Store_by_value u t (contents s).
Proof.
  intros Hwf. apply map_eq. intros v. unfold Store_by_value.
  rewrite <- tokens_of_contents, contents_lookup, tokens_of_Store by done.
  destruct (decide (v = u)) as [->|Hv].
  - rewrite lookup_insert_eq. destruct (store_Store_same u t s) as [l ->]. done.
  - rewrite lookup_insert_ne, store_Store_other, contents_lookup by done. done.
Qed.

Lemma contents_Revoke u t s :
  wf s → contents (Revoke u t s).2 = Revoke_by_value u t (contents s).
Proof.
  intros Hwf. apply map_eq. intros v. unfold Revoke_by_value.
  rewrite contents_lookup, tokens_of_Revoke, store_Revoke by done.
  rewrite (contents_lookup s u).
  destruct (decide (v = u)) as [->|Hv].
  - destruct (store s !! u) as [l|] eqn:Hu; cbn.
    + by rewrite lookup_insert_eq.
    + by rewrite contents_lookup, Hu.
  - destruct (store s !! u) as [l|] eqn:Hu; cbn.
    + by rewrite lookup_insert_ne, contents_lookup.
    + by rewrite contents_lookup.
Qed.

(** The methods, which work on map objects through references, behave as
    on a map of maps held by value.  On a reachable state [Store] and
    [Revoke] change [contents] as [Store_by_value] and [Revoke_by_value]
    do, and in any state [Lookup] and [List] read their results off
    [contents]: the token's entry, and the keys of the user's map. *)
Theorem store_by_value s :
  (reachable s →
   ∀ u t, contents (Store u t s).2 = Store_by_value u t (contents s)
          ∧ contents (Revoke u t s).2 = Revoke_by_value u t (contents s))
  ∧ (∀ u t, Lookup u t s
            = (default EmptyString (contents s !! u ≫= (.!! t)), None))
  ∧ (∀ u r, List_returns u s r ↔
            match contents s !! u with
            | Some userTokens => ∃ ks, range_order userTokens ks ∧ r = (ks, None)
            | None => r = ([], None)
            end).
Proof.
  split_and!.
  - intros Hwf%reachable_wf u t.
    split; [by apply contents_Store | by apply contents_Revoke].
  - intros u t. rewrite Lookup_tokens_of, contents_lookup. unfold tokens_of, map_index.
    destruct (store s !! u); [done|]. by rewrite lookup_empty.
  - intros u r. rewrite contents_lookup. split.
    + intros [He Hr]%List_returns_inv. destruct r as [ks e]. simpl in *. subst e.
      destruct (store s !! u); cbn; [eauto|by subst].
    + destruct (store s !! u) as [l|] eqn:Hu; cbn.
      * intros (ks & Hks & ->). apply List_returns_intro. by rewrite Hu.
      * intros ->. apply List_returns_intro. by rewrite Hu.
Qed.

Lemma store_by_value_witness :
  reachable scenario
  ∧ contents (Store "bob" "y" scenario).2 = Store_by_value "bob" "y" (contents scenario)
  ∧ List_returns "alice" scenario (["tok-2"; "tok-1"], None).
Proof.
  assert (reachable scenario) as Hs by apply reachable_scenario.
  pose proof (store_by_value scenario) as (HS & _ & HL).
  split; [exact Hs|]. split; [exact (proj1 (HS Hs "bob" "y"))|].
  apply HL. vm_compute. exists ["tok-2"; "tok-1"]. split; [apply perm_swap | reflexivity].
Defined.

Lemma Store_by_value_comm u t u' t' (m : gmap string (gmap string string)) :
  Store_by_value u' t' (Store_by_value u t m)
  = Store_by_value u t (Store_by_value u' t' m).
Proof.
  unfold Store_by_value. destruct (decide (u = u')) as [->|Hu].
  - rewrite !lookup_insert_eq, !insert_insert_eq. cbn. f_equal.
    destruct (decide (t = t')) as [->|Ht]; [done|]. by apply insert_insert_ne.
  - rewrite !lookup_insert_ne by done. by apply insert_insert_ne.
Qed.

Lemma Revoke_by_value_comm u t u' t' (m : gmap string (gmap string string)) :
  Revoke_by_value u' t' (Revoke_by_value u t m)
  = Revoke_by_value u t (Revoke_by_value u' t' m).
Proof.
  unfold Revoke_by_value. destruct (decide (u = u')) as [->|Hu].
  - destruct (m !! u') as [ts|] eqn:Hm; rewrite ?Hm; [|done].
    rewrite !lookup_insert_eq, !insert_insert_eq. f_equal. apply delete_delete.
  - destruct (m !! u) as [ts|] eqn:Hm, (m !! u') as [ts'|] eqn:Hm';
      rewrite ?lookup_insert_ne, ?Hm, ?Hm' by done; try done.
    by apply insert_insert_ne.
Qed.

Lemma Store_Revoke_by_value_comm u t u' t' (m : gmap string (gmap string string)) :
  (u, t) ≠ (u', t') →
  Revoke_by_value u' t' (Store_by_value u t m)
  = Store_by_value u t (Revoke_by_value u' t' m).
Proof.
  intros Hne. unfold Revoke_by_value, Store_by_value.
  destruct (decide (u = u')) as [->|Hu].
  - assert (t' ≠ t) as Ht by congruence.
    rewrite lookup_insert_eq, insert_insert_eq.
    destruct (m !! u') as [ts|] eqn:Hm; cbn.
    + rewrite lookup_insert_eq, insert_insert_eq. cbn. f_equal.
      by apply delete_insert_ne.
    + rewrite Hm. cbn. f_equal. rewrite delete_insert_ne by done.
      by rewrite delete_empty.
  - rewrite lookup_insert_ne by done.
    destruct (m !! u') as [ts'|] eqn:Hm'; [|done].
    rewrite lookup_insert_ne by done. by apply insert_insert_ne.
Qed.

(** On a reachable state the order of two calls does not show in what
    the store holds: two [Store]s commute, two [Revoke]s commute, and a
    [Store] commutes with a [Revoke] of another user or token. *)
Theorem calls_commute u t u' t' s :
  reachable s →
  contents (Store u' t' (Store u t s).2).2
    = contents (Store u t (Store u' t' s).2).2
  ∧ contents (Revoke u' t' (Revoke u t s).2).2
    = contents (Revoke u t (Revoke u' t' s).2).2
  ∧ ((u, t) ≠ (u', t') →
     contents (Revoke u' t' (Store u t s).2).2
     = contents (Store u t (Revoke u' t' s).2).2).
Proof.
  intros Hwf%reachable_wf. split_and!.
  - rewrite !contents_Store by auto using wf_Store. apply Store_by_value_comm.
  - rewrite !contents_Revoke by auto using wf_Revoke. apply Revoke_by_value_comm.
  - intros Hne.
    rewrite contents_Revoke, !contents_Store, contents_Revoke
      by auto using wf_Store, wf_Revoke.
    by apply Store_Revoke_by_value_comm.
Qed.

Lemma calls_commute_witness :
  reachable scenario
  ∧ ("carol", "c") ≠ ("alice", "tok-1")
  ∧ contents (Store "dave" "d" (Store "carol" "c" scenario).2).2
    = contents (Store "carol" "c" (Store "dave" "d" scenario).2).2
  ∧ (Store "dave" "d" (Store "carol" "c" scenario).2).2
    ≠ (Store "carol" "c" (Store "dave" "d" scenario).2).2
  ∧ contents (Revoke "alice" "tok-1" (Store "carol" "c" scenario).2).2
    = contents (Store "carol" "c" (Revoke "alice" "tok-1" scenario).2).2.
Proof.
  assert (reachable scenario) as Hs by apply reachable_scenario.
  assert (("carol", "c") ≠ ("alice", "tok-1")) as Hne by discriminate.
  pose proof (calls_commute "carol" "c" "dave" "d" scenario Hs) as (HS & _ & _).
  pose proof (calls_commute "carol" "c" "alice" "tok-1" scenario Hs) as (_ & _ & HR).
  split; [exact Hs|]. split; [exact Hne|]. split; [exact HS|]. split; [|exact (HR Hne)].
  intros Heq. apply (f_equal (λ s, store s !! "carol")) in Heq.
  vm_compute in Heq. discriminate Heq.
Defined.

(** [Store] makes a map object for a new user only, and nothing ever
    drops or shares one: in a reachable state the map objects are as
    many as the users, each is the map of some user, and no two users
    have the same one. *)
Theorem one_map_per_user s :
  reachable s →
  size (maps s) = size (store s)
  ∧ next s = size (store s)
  ∧ (∀ l, is_Some (maps s !! l) ↔ ∃ u, store s !! u = Some l)
  ∧ (∀ u u' l, store s !! u = Some l → store s !! u' = Some l → u = u').
Proof.
  intros Hs.
  enough (size (maps s) = size (store s) ∧ next s = size (store s)
          ∧ ∀ l, is_Some (maps s !! l) → ∃ u, store s !! u = Some l)
    as (Hm & Hn & Hl).
  { pose proof (reachable_wf s Hs) as Hwf. split_and!; try done.
    - intros l. split; [apply Hl|]. intros [u Hu].
      by destruct (wf_alloc s Hwf u l Hu).
    - apply (wf_inj s Hwf). }
  induction Hs as [|s c Hs (Hm & Hn & Hl)].
  { cbn. split_and!; try by rewrite !map_size_empty.
    intros l. rewrite lookup_empty. by intros [? ?]. }
  pose proof (reachable_wf s Hs) as Hwf.
  assert (∀ u l t',
    store s !! u = Some l →
    let s' := {| store := store s; maps := <[l := t']> (maps s); next := next s |} in
    size (maps s') = size (store s') ∧ next s' = size (store s')
    ∧ ∀ l', is_Some (maps s' !! l') → ∃ u, store s' !! u = Some l') as Hsame.
  { intros u l t' Hu. cbn. split_and!; try done.
    - rewrite map_size_insert_Some; [done|]. by destruct (wf_alloc s Hwf u l Hu).
    - intros l'. rewrite lookup_insert. case_decide; subst; eauto. }
  destruct c as [u t|u t|u t|u]; cbn; try done.
  - destruct (store s !! u) as [l|] eqn:Hu.
    + rewrite (Store_known u t s l Hu). by eapply Hsame.
    + rewrite (Store_unknown u t s Hu). cbn.
      assert (maps s !! next s = None) as Hfresh.
      { apply eq_None_not_Some. intros [u' Hu']%Hl.
        destruct (wf_alloc s Hwf u' _ Hu'). lia. }
      rewrite !map_size_insert_None by done. split_and!; [lia|lia|].
      intros l'. rewrite lookup_insert. case_decide as Hd.
      * intros _. exists u. subst l'. apply lookup_insert_eq.
      * intros [u' Hu']%Hl. exists u'. rewrite lookup_insert_ne; [done|congruence].
  - destruct (store s !! u) as [l|] eqn:Hu.
    + rewrite (Revoke_known u t s l Hu). by eapply Hsame.
    + by rewrite (Revoke_unknown u t s Hu).
Qed.

Lemma one_map_per_user_witness :
  reachable scenario ∧ size (maps scenario) = 2 ∧ size (store scenario) = 2.
Proof.
  assert (reachable scenario) as Hs by apply reachable_scenario.
  pose proof (one_map_per_user scenario Hs) as (Hm & _).
  split; [exact Hs|]. split; [rewrite Hm|]; reflexivity.
Defined.

End InMemoryLaws.

(** ** More on the Vault store *)

Module VaultLaws.
Import Vault VaultFacts.

Lemma fill_tokens_Ret_inv keys tokens i out :
  fill_tokens keys tokens i = Ret out → ∃ l, keys = VString <$> l.
Proof.
  revert tokens i. induction keys as [|key keys IH]; intros tokens i H.
  - by exists [].
  - destruct key as [|k|?|?]; try discriminate H.
    cbn in H. apply IH in H as [l ->]. by exists (k :: l).
Qed.

Lemma fill_tokens_bad_key keys tokens i :
  (∃ key, key ∈ keys ∧ ∀ k, key ≠ VString k) →
  fill_tokens keys tokens i = Panic InterfaceConversion.
Proof.
  revert tokens i. induction keys as [|key keys IH]; intros tokens i (bad & Hin & Hbad).
  - by apply elem_of_nil in Hin.
  - apply elem_of_cons in Hin as [<-|Hin].
    + destruct bad; try done. by destruct (Hbad s).
    + destruct key; try done. cbn. apply IH. eauto.
Qed.

Lemma fill_tokens_strings (l : list string) :
  fill_tokens (VString <$> l)
    (replicate (length (VString <$> l)) EmptyString) 0 = Ret l.
Proof.
  pose proof (fill_tokens_app l []
    (replicate (length (VString <$> l)) EmptyString)) as H.
  cbn [app length] in H.
  rewrite H by (by rewrite length_replicate, length_fmap).
  rewrite drop_ge by (by rewrite length_replicate, length_fmap).
  by rewrite (right_id_L [] (++)).
Qed.

Lemma string_app_inv_head (p x y : string) : p +:+ x = p +:+ y → x = y.
Proof. induction p as [|a p IH]; cbn; [done|]. intros [= H]. by apply IH. Qed.

Lemma string_app_assoc (x y z : string) : (x +:+ y) +:+ z = x +:+ (y +:+ z).
Proof.
  induction x as [|a x IH]; [reflexivity|].
  change (String a ((x +:+ y) +:+ z) = String a (x +:+ (y +:+ z))).
  by rewrite IH.
Qed.

Lemma slash_split (u u' t t' : string) :
  slash_free u = true → slash_free u' = true →
  u +:+ String slash t = u' +:+ String slash t' → u = u' ∧ t = t'.
Proof.
  revert u'. induction u as [|a u IH]; intros [|a' u'] Hu Hu'; cbn in *.
  - by intros [= ->].
  - intros [= <- _]. apply andb_true_iff in Hu' as [Ha _].
    by rewrite Ascii.eqb_refl in Ha.
  - intros [= -> _]. apply andb_true_iff in Hu as [Ha _].
    by rewrite Ascii.eqb_refl in Ha.
  - intros [= <- H]. apply andb_true_iff in Hu as [_ Hu].
    apply andb_true_iff in Hu' as [_ Hu'].
    destruct (IH u' Hu Hu' H) as [-> ->]. done.
Qed.

Section against_a_service.
Context {S : Type} (svc : service S).
Implicit Types (σ : S) (u t : string) (secret : option Secret) (err : error).

(** An error of the client comes back as it is: when the one request of
    a method is answered with an error, the method returns that error
    with the zero value of its result, whatever the secret of the answer,
    and it does not panic. *)
Theorem client_error_returned u t σ secret e σ' :
  (svc (logical_Write (tokenPath u t) {[ "token" := VString t ]}) σ
     = ((secret, Some e), σ') →
   exec svc (Store u t) σ = (Returns (Some e), σ'))
  ∧ (svc (logical_Read (tokenPath u t)) σ = ((secret, Some e), σ') →
     exec svc (Lookup u t) σ = (Returns (EmptyString, Some e), σ'))
  ∧ (svc (logical_Delete (tokenPath u t)) σ = ((secret, Some e), σ') →
     exec svc (Revoke u t) σ = (Returns (Some e), σ'))
  ∧ (svc (logical_List (listPath u)) σ = ((secret, Some e), σ') →
     exec svc (List u) σ = (Returns ([], Some e), σ')).
Proof.
  split_and!; intros H; cbn; by rewrite H.
Qed.

(** [Lookup] returns a token with a [nil] error exactly when the service
    answers without error with a secret whose [token] field is a string,
    and the token returned is that string: it is not compared with the
    token asked for. *)
Theorem Lookup_returns_iff u t σ tok σ' :
  exec svc (Lookup u t) σ = (Returns (tok, None), σ') ↔
  ∃ sec, svc (logical_Read (tokenPath u t)) σ = ((Some sec, None), σ')
         ∧ Data sec !! "token" = Some (VString tok).
Proof.
  rewrite exec_Lookup. destruct (svc _ σ) as [[secret err] σ0].
  unfold data_index. split.
  - destruct err as [e|]; [intros [=]|]. destruct secret as [sec|]; [|intros [=]].
    destruct (Data sec !! "token") as [[|k|?|?]|] eqn:Hd; cbn; intros [= -> ->].
    by exists sec.
  - intros (sec & [= -> -> ->] & Hd). by rewrite Hd.
Qed.

(** [List] returns tokens with a [nil] error exactly when the service
    answers without error with a secret whose [keys] field is a slice of
    strings, and the tokens are those strings in their order. *)
Theorem List_returns_iff u σ l σ' :
  exec svc (List u) σ = (Returns (l, None), σ') ↔
  ∃ sec, svc (logical_List (listPath u)) σ = ((Some sec, None), σ')
         ∧ Data sec !! "keys" = Some (VSlice (VString <$> l)).
Proof.
  split.
  - cbn. destruct (svc _ σ) as [[secret err] σ0] eqn:Hsvc.
    destruct err as [e|]; [intros [=]|]. destruct secret as [sec|]; [|intros [=]].
    cbn. unfold data_index.
    destruct (Data sec !! "keys") as [[|?|keys|?]|] eqn:Hd; cbn;
      [intros [=]|intros [=]| |intros [=]|intros [=]].
    pose proof (fill_tokens_quiet keys (replicate (length keys) EmptyString) 0)
      as Hq.
    destruct (fill_tokens keys (replicate (length keys) EmptyString) 0)
      as [out|p|r k] eqn:Hf; cbn; [|intros [=]|done].
    intros [= -> ->].
    destruct (fill_tokens_Ret_inv _ _ _ _ Hf) as [l0 ->].
    rewrite fill_tokens_strings in Hf. injection Hf as ->. by exists sec.
  - intros (sec & Hsvc & Hd). by eapply exec_List_strings.
Qed.

(** A listing with a key that is not a string makes [List] panic on the
    type assertion. *)
Theorem List_bad_key_panics u σ sec keys σ' :
  svc (logical_List (listPath u)) σ = ((Some sec, None), σ') →
  Data sec !! "keys" = Some (VSlice keys) →
  (∃ key, key ∈ keys ∧ ∀ k, key ≠ VString k) →
  exec svc (List u) σ = (Panics InterfaceConversion, σ').
Proof.
  intros Hsvc Hd Hbad. cbn. rewrite Hsvc. cbn. unfold data_index.
  rewrite Hd. cbn. by rewrite (fill_tokens_bad_key _ _ _ Hbad).
Qed.

Lemma Lookup_after_Store_path u t u' t' σ :
  reads_back svc (tokenPath u t) {[ "token" := VString t ]} σ →
  tokenPath u' t' = tokenPath u t →
  (exec svc (Store u t) σ).1 = Returns None
  ∧ (exec svc (Lookup u' t') (exec svc (Store u t) σ).2).1 = Returns (t, None).
Proof.
  intros (secret & σ1 & σ2 & HW & HR) Hpath.
  rewrite (exec_Store svc u t σ secret None σ1 HW). split; [done|].
  rewrite exec_Lookup, Hpath. cbn [snd]. rewrite HR. unfold data_index. cbn [Data].
  by rewrite lookup_singleton_eq.
Qed.

(** Against a service that reads back what was written, [Lookup(u,t)]
    after [Store(u,t)] returns [t] with a [nil] error: [Store] writes the
    token under the field [Lookup] reads, at the path [Lookup] reads. *)
Theorem Store_Lookup_round_trip u t σ :
  reads_back svc (tokenPath u t) {[ "token" := VString t ]} σ →
  (exec svc (Store u t) σ).1 = Returns None
  ∧ (exec svc (Lookup u t) (exec svc (Store u t) σ).2).1 = Returns (t, None).
Proof. intros H. by apply Lookup_after_Store_path. Qed.

(** A user id is spliced into the path as it is.  The token [b] of the
    user [u/a] and the token [a/b] of the user [u] have the same path, so
    against a service that reads back what was written, [Lookup] of
    [a/b] for [u] after [Store] of [b] for [u/a] returns [b]. *)
Theorem path_collision u a b σ :
  tokenPath (u +:+ "/" +:+ a) b = tokenPath u (a +:+ "/" +:+ b)
  ∧ (reads_back svc (tokenPath (u +:+ "/" +:+ a) b) {[ "token" := VString b ]} σ →
     (exec svc (Lookup u (a +:+ "/" +:+ b))
        (exec svc (Store (u +:+ "/" +:+ a) b) σ).2).1 = Returns (b, None)).
Proof.
  assert (tokenPath (u +:+ "/" +:+ a) b = tokenPath u (a +:+ "/" +:+ b)) as Hp.
  { unfold tokenPath. by rewrite !string_app_assoc. }
  split; [done|]. intros H.
  by apply (Lookup_after_Store_path (u +:+ "/" +:+ a) b u (a +:+ "/" +:+ b) σ H).
Qed.
End against_a_service.

(** Two users whose ids hold no [/] never meet on a path: [tokenPath]
    gives different paths to different pairs of such a user and a token. *)
Theorem tokenPath_inj u t u' t' :
  slash_free u = true → slash_free u' = true →
  tokenPath u t = tokenPath u' t' → u = u' ∧ t = t'.
Proof.
  intros Hu Hu' H. unfold tokenPath in H.
  apply string_app_inv_head in H. by apply slash_split.
Qed.

Lemma tokenPath_inj_witness :
  slash_free "alice" = true ∧ slash_free "bob" = true
  ∧ tokenPath "alice" "tok-1" ≠ tokenPath "bob" "tok-1".
Proof.
  assert (slash_free "alice" = true) as Ha by reflexivity.
  assert (slash_free "bob" = true) as Hb by reflexivity.
  split; [exact Ha|]. split; [exact Hb|].
  intros H. destruct (tokenPath_inj "alice" "tok-1" "bob" "tok-1" Ha Hb H) as [Hu _].
  discriminate Hu.
Defined.

Lemma client_error_returned_witness :
  let svc := canned (None, Some "permission denied") in
  exec svc (Lookup "alice" "tok-1") () = (Returns (EmptyString, Some "permission denied"), ())
  ∧ exec svc (List "alice") () = (Returns ([], Some "permission denied"), ()).
Proof.
  intros svc.
  pose proof (client_error_returned svc "alice" "tok-1" () None "permission denied" ())
    as (_ & HL & _ & HK).
  split; [apply HL | apply HK]; reflexivity.
Defined.

Lemma Lookup_returns_iff_witness :
  let svc := canned (Some (mkSecret {[ "token" := VString "other" ]}), None) in
  exec svc (Lookup "alice" "tok-1") () = (Returns ("other", None), ()).
Proof.
  intros svc. apply (Lookup_returns_iff svc "alice" "tok-1" () "other" ()).
  exists (mkSecret {[ "token" := VString "other" ]}). split; reflexivity.
Defined.

Lemma List_returns_iff_witness :
  let svc := canned (Some (mkSecret {[ "keys" := VSlice [VString "b"; VString "a"] ]}), None) in
  exec svc (List "alice") () = (Returns (["b"; "a"], None), ()).
Proof.
  intros svc. apply (List_returns_iff svc "alice" () ["b"; "a"] ()).
  exists (mkSecret {[ "keys" := VSlice [VString "b"; VString "a"] ]}).
  split; reflexivity.
Defined.

Lemma List_bad_key_panics_witness :
  let sec := mkSecret {[ "keys" := VSlice [VString "a"; VOther "json.Number"] ]} in
  exec (canned (Some sec, None)) (List "alice") () = (Panics InterfaceConversion, ()).
Proof.
  intros sec.
  apply (List_bad_key_panics (canned (Some sec, None)) "alice" () sec
           [VString "a"; VOther "json.Number"] ()); [reflexivity|reflexivity|].
  exists (VOther "json.Number"). split; [|discriminate].
  apply elem_of_cons. right. apply elem_of_cons. by left.
Defined.

Lemma kv_reads_back path data σ : reads_back kv path data σ.
Proof.
  exists None, (<[path := data]> σ), (<[path := data]> σ). split; [done|].
  cbn. by rewrite lookup_insert_eq.
Qed.

Lemma Store_Lookup_round_trip_witness :
  reads_back kv (tokenPath "alice" "tok-1") {[ "token" := VString "tok-1" ]} ∅
  ∧ (exec kv (Lookup "alice" "tok-1") (exec kv (Store "alice" "tok-1") ∅).2).1
    = Returns ("tok-1", None).
Proof.
  assert (reads_back kv (tokenPath "alice" "tok-1")
            {[ "token" := VString "tok-1" ]} ∅) as H by apply kv_reads_back.
  split; [exact H|].
  exact (proj2 (Store_Lookup_round_trip kv "alice" "tok-1" ∅ H)).
Defined.

Lemma path_collision_witness :
  reads_back kv (tokenPath ("a" +:+ "/" +:+ "b") "c") {[ "token" := VString "c" ]} ∅
  ∧ (exec kv (Lookup "a" "b/c") (exec kv (Store "a/b" "c") ∅).2).1
    = Returns ("c", None).
Proof.
  assert (reads_back kv (tokenPath ("a" +:+ "/" +:+ "b") "c")
            {[ "token" := VString "c" ]} ∅) as H by apply kv_reads_back.
  split; [exact H|].
  exact (proj2 (path_collision kv "a" "b" "c" ∅) H).
Defined.

End VaultLaws.
